(** * A shallow embedding of the mutex-guarded SPSC channel of
      [aufgabe1/spsc/src/main.rs] and its properties. *)

From Stdlib Require Import String ZArith Lia Bool Arith List.
Import ListNotations.
Local Open Scope nat_scope.
Local Open Scope list_scope.

(** ** Rust results and the program's outcomes *)

(** [Result<A, E>]. *)
Inductive Result (A E : Type) : Type :=
| Ok (a : A)
| Err (e : E).
Arguments Ok {A E} a.
Arguments Err {A E} e.

(** How a call ends: it returns a value, it panics (the whole thread
    unwinds), or a [loop] inside it has not exited within the given number
    of iterations ([OutOfFuel]; an unbounded loop is the limit of this). *)
Inductive outcome (A : Type) : Type :=
| Done (a : A)
| Panicked (msg : string)
| OutOfFuel.
Arguments Done {A} a.
Arguments Panicked {A} msg.
Arguments OutOfFuel {A}.

(** ** Error types (lines 15-26) *)

(** [pub struct Error { message: String }] *)
Record Error := mkError { Error_message : string }.

(** [pub struct SendError<T>(pub T);] *)
Inductive SendError (T : Type) : Type :=
| mkSendError (value : T).
Arguments mkSendError {T} value.

Definition SendError_0 {T} (e : SendError T) : T :=
  match e with mkSendError v => v end.

(** [pub struct RecvError { message: String }] *)
Record RecvError := mkRecvError { RecvError_message : string }.

(** ** The standard library's [VecDeque] as the code uses it

    Ring buffer of the Rust standard library of the time: the buffer size
    [cap] is a power of two, one slot is kept free, [capacity() = cap - 1];
    [with_capacity(n)] allocates [max(n + 1, MINIMUM_CAPACITY + 1)
    .next_power_of_two()] slots with [MINIMUM_CAPACITY = 1];
    [push_back] doubles the buffer when [cap - len == 1]; [pop_front]
    never shrinks it. *)

(** [usize::next_power_of_two] (without the overflow). *)
Definition next_power_of_two (n : nat) : nat :=
  if n <=? 1 then 1 else 2 ^ S (Nat.log2 (n - 1)).

Definition MINIMUM_CAPACITY : nat := 1.

Section VecDeque.
Variable T : Type.

Record VecDeque := mkVecDeque { buf_cap : nat; elems : list T }.

Definition with_capacity (capacity : nat) : VecDeque :=
  mkVecDeque (next_power_of_two (Nat.max (capacity + 1) (MINIMUM_CAPACITY + 1))) [].

Definition vd_capacity (d : VecDeque) : nat := buf_cap d - 1.

Definition vd_len (d : VecDeque) : nat := length (elems d).

Definition is_full (d : VecDeque) : bool := buf_cap d - vd_len d =? 1.

Definition grow (d : VecDeque) : VecDeque := mkVecDeque (buf_cap d * 2) (elems d).

Definition push_back (d : VecDeque) (value : T) : VecDeque :=
  let d' := if is_full d then grow d else d in
  mkVecDeque (buf_cap d') (elems d' ++ [value]).

Definition pop_front (d : VecDeque) : option T * VecDeque :=
  match elems d with
  | [] => (None, d)
  | x :: rest => (Some x, mkVecDeque (buf_cap d) rest)
  end.

End VecDeque.

Arguments mkVecDeque {T} buf_cap elems.
Arguments buf_cap {T} v.
Arguments elems {T} v.
Arguments with_capacity {T} capacity.
Arguments vd_capacity {T} d.
Arguments vd_len {T} d.
Arguments is_full {T} d.
Arguments grow {T} d.
Arguments push_back {T} d value.
Arguments pop_front {T} d.

(** ** The shared queue [Arc<Mutex<VecDeque<T>>>] and its handles (lines 38-158)

    [channel] allocates one store; the [Producer] and the [Consumer] it
    returns (and every clone of them) are references to that one store, so
    every operation below reads and writes the same [Shared] value.  The
    mutex is either healthy or poisoned (a holder panicked while holding
    it); [Mutex::lock] returns [Err] exactly when it is poisoned. *)

Section Channel.
Variable T : Type.

Record Shared := mkShared { poisoned : bool; queue : VecDeque T }.

(** [self.queue.lock()] *)
Definition lock (s : Shared) : option (VecDeque T) :=
  if poisoned s then None else Some (queue s).

(** Writing back through the guard of a healthy mutex. *)
Definition unlock_with (q : VecDeque T) : Shared := mkShared false q.

(** [channel(capacity)] (lines 146-158) and [Producer::new]/[Consumer::new]
    (lines 50-52, 85-87): a fresh, healthy store. *)
Definition channel (capacity : nat) : Shared :=
  mkShared false (with_capacity capacity).

(** [Producer::send] (lines 54-62). *)
Definition send (s : Shared) (value : T) : outcome (Result unit (SendError T) * Shared) :=
  match lock s with
  | Some q => Done (Ok tt, unlock_with (push_back q value))
  | None => Panicked "Producer::send() could not lock mutex."%string
  end.

(** [Producer::capacity] (lines 64-71). *)
Definition producer_capacity (s : Shared) : outcome (Result nat Error * Shared) :=
  match lock s with
  | Some q => Done (Ok (vd_capacity q), s)
  | None => Panicked "Producer::send() could not lock mutex."%string
  end.

(** [Producer::size] (lines 73-80). *)
Definition producer_size (s : Shared) : outcome (Result nat Error * Shared) :=
  match lock s with
  | Some q => Done (Ok (vd_len q), s)
  | None => Panicked "Producer::send() could not lock mutex."%string
  end.

(** [Consumer::capacity] (lines 127-134). *)
Definition consumer_capacity (s : Shared) : outcome (Result nat Error * Shared) :=
  match lock s with
  | Some q => Done (Ok (vd_capacity q), s)
  | None => Panicked "Producer::send() could not lock mutex."%string
  end.

(** [Consumer::size] (lines 136-143). *)
Definition consumer_size (s : Shared) : outcome (Result nat Error * Shared) :=
  match lock s with
  | Some q => Done (Ok (vd_len q), s)
  | None => Panicked "Producer::send() could not lock mutex."%string
  end.

(** What [Consumer::recv] does with the mutex, in order. *)
Inductive event :=
| Acquire
| PopAttempt (got_value : bool)
| Release.

(** The [loop] of lines 103-114, run for at most [fuel] iterations, with
    the guard held throughout: the events it emits, and [None] while it has
    not exited, or the final [result] and queue once it breaks. *)
Fixpoint recv_loop (fuel : nat) (q : VecDeque T)
  : list event * option (option T * VecDeque T) :=
  match fuel with
  | 0 => ([], None)
  | S fuel' =>
      let (result, q') := pop_front q in
      match result with
      | None =>
          let (evs, r) := recv_loop fuel' q' in (PopAttempt false :: evs, r)
      | Some _ => ([PopAttempt true], Some (result, q'))
      end
  end.

(** [Consumer::recv] (lines 89-125).  The guard [maybe_queue] is taken at
    line 96 and dropped when the function returns (also on the poisoned
    path, whose [PoisonError] holds the guard). *)
Definition recv_traced (fuel : nat) (s : Shared)
  : list event * outcome (Result T RecvError * Shared) :=
  match lock s with
  | Some q =>
      let (evs, r) := recv_loop fuel q in
      match r with
      | None => (Acquire :: evs, OutOfFuel)
      | Some (result, q') =>
          (Acquire :: evs ++ [Release],
           Done (match result with
                 | None => Err (mkRecvError "Consumer::recv() pop_front() returned None."%string)
                 | Some result => Ok result
                 end, unlock_with q'))
      end
  | None =>
      ([Acquire; Release],
       Done (Err (mkRecvError "Consumer::recv() could not lock mutex."%string), s))
  end.

Definition recv (fuel : nat) (s : Shared) : outcome (Result T RecvError * Shared) :=
  snd (recv_traced fuel s).

(** The two texts of [RecvError] the code builds. *)
Definition lock_error : RecvError :=
  mkRecvError "Consumer::recv() could not lock mutex."%string.
Definition empty_error : RecvError :=
  mkRecvError "Consumer::recv() pop_front() returned None."%string.

(** ** Sequential use of one channel (no concurrent access) *)

Inductive op :=
| OpSend (v : T)
| OpRecv.

(** Running calls one after another on the shared store; each [recv] may
    spin at most [fuel] times; a panic or a spinning [recv] stops the run. *)
Fixpoint run_ops (fuel : nat) (ops : list op) (s : Shared) : outcome Shared :=
  match ops with
  | [] => Done s
  | OpSend v :: ops' =>
      match send s v with
      | Done (_, s') => run_ops fuel ops' s'
      | Panicked m => Panicked m
      | OutOfFuel => OutOfFuel
      end
  | OpRecv :: ops' =>
      match recv fuel s with
      | Done (_, s') => run_ops fuel ops' s'
      | Panicked m => Panicked m
      | OutOfFuel => OutOfFuel
      end
  end.

Definition count_sends (ops : list op) : nat :=
  length (filter (fun o => match o with OpSend _ => true | OpRecv => false end) ops).
Definition count_recvs (ops : list op) : nat :=
  length (filter (fun o => match o with OpSend _ => false | OpRecv => true end) ops).

(** [n] successive [recv] calls, collecting their results. *)
Fixpoint recv_n (fuel n : nat) (s : Shared) : outcome (list (Result T RecvError) * Shared) :=
  match n with
  | 0 => Done ([], s)
  | S n' =>
      match recv fuel s with
      | Done (r, s') =>
          match recv_n fuel n' s' with
          | Done (rs, s'') => Done (r :: rs, s'')
          | Panicked m => Panicked m
          | OutOfFuel => OutOfFuel
          end
      | Panicked m => Panicked m
      | OutOfFuel => OutOfFuel
      end
  end.

End Channel.

Arguments mkShared {T} poisoned queue.
Arguments poisoned {T} s.
Arguments queue {T} s.
Arguments lock {T} s.
Arguments unlock_with {T} q.
Arguments channel {T} capacity.
Arguments send {T} s value.
Arguments producer_capacity {T} s.
Arguments producer_size {T} s.
Arguments consumer_capacity {T} s.
Arguments consumer_size {T} s.
Arguments recv_loop {T} fuel q.
Arguments recv_traced {T} fuel s.
Arguments recv {T} fuel s.
Arguments OpSend {T} v.
Arguments OpRecv {T}.
Arguments run_ops {T} fuel ops s.
Arguments count_sends {T} ops.
Arguments count_recvs {T} ops.
Arguments recv_n {T} fuel n s.

(** ** [main] (lines 160-191): one producer thread and one consumer thread

    The program's state: the shared store (of [i32] values), the producer's
    loop variable [i] of [for i in 1..count], the number of iterations left
    to the consumer's [for _i in 1..count], its running [sum], and whether
    the consumer is inside a [recv] that found the queue empty: such a call
    keeps the guard and spins (see [recv_loop]), so from then on the
    producer cannot lock and the queue never changes again. *)

Module Main.

Definition count : Z := 30.

Definition i32_min : Z := - 2 ^ 31.
Definition i32_max : Z := 2 ^ 31 - 1.

(** [sum += val] on [i32] (a debug build panics on overflow). *)
Definition checked_add_i32 (a b : Z) : option Z :=
  let r := (a + b)%Z in
  if (i32_min <=? r)%Z && (r <=? i32_max)%Z then Some r else None.

Record Sys := mkSys {
  sh : Shared Z;
  p_i : Z;
  c_left : nat;
  sum : Z;
  c_spinning : bool }.

Definition init : Sys :=
  mkSys (channel 64) 1 (Z.to_nat (count - 1)) 0 false.

Inductive thread := Producer | Consumer.

(** One atomic step of a thread; [None] when it cannot move (finished,
    blocked on the lock, or panicked). *)
Definition step (t : thread) (x : Sys) : option Sys :=
  match t with
  | Producer =>
      if c_spinning x then None
      else if (p_i x <? count)%Z then
        match send (sh x) (p_i x) with
        | Done (Ok _, s') => Some (mkSys s' (p_i x + 1) (c_left x) (sum x) false)
        | _ => None
        end
      else None
  | Consumer =>
      if c_spinning x then Some x
      else match c_left x with
      | 0 => None
      | S rest =>
          match recv 1 (sh x) with
          | OutOfFuel => Some (mkSys (sh x) (p_i x) (c_left x) (sum x) true)
          | Done (Ok val, s') =>
              match checked_add_i32 (sum x) val with
              | Some sum' => Some (mkSys s' (p_i x) rest sum' false)
              | None => None
              end
          | Done (Err _, s') => Some (mkSys s' (p_i x) rest (sum x) false)
          | Panicked _ => None
          end
      end
  end.

(** Running a schedule: the threads chosen in turn. *)
Fixpoint exec (sched : list thread) (x : Sys) : option Sys :=
  match sched with
  | [] => Some x
  | t :: sched' =>
      match step t x with
      | Some x' => exec sched' x'
      | None => None
      end
  end.

(** Both threads have run to completion (both [join]s return). *)
Definition finished (x : Sys) : bool :=
  (p_i x =? count)%Z && (c_left x =? 0) && negb (c_spinning x).

End Main.

Example main_sequential :
  option_map Main.sum
    (Main.exec (repeat Main.Producer 29 ++ repeat Main.Consumer 29) Main.init)
  = Some 435%Z.
Proof. vm_compute. reflexivity. Qed.

Example capacity_100 :
  producer_capacity (@channel nat 100) = Done (Ok 127, channel 100).
Proof. reflexivity. Qed.

(** ** Lemmas on the embedding *)

Section Lemmas.
Variable T : Type.
Implicit Types (q : VecDeque T) (s : Shared T).

Lemma recv_loop_exit : forall fuel q evs result q',
  recv_loop fuel q = (evs, Some (result, q')) ->
  exists x, result = Some x /\ elems q = x :: elems q' /\ buf_cap q' = buf_cap q.
Proof.
  induction fuel as [|fuel IH]; intros q evs result q' H; simpl in H.
  - discriminate.
  - destruct q as [c [|x rest]]; simpl in H.
    + destruct (recv_loop fuel (mkVecDeque c [])) as [evs' r] eqn:E.
      injection H as <- ->.
      exact (IH _ _ _ _ E).
    + injection H as <- <- <-. exists x. simpl. auto.
Qed.

Lemma recv_loop_empty : forall fuel c,
  recv_loop fuel (@mkVecDeque T c []) = (repeat (PopAttempt false) fuel, None).
Proof.
  induction fuel as [|fuel IH]; intros c; simpl; [reflexivity|].
  rewrite IH. reflexivity.
Qed.

Lemma recv_loop_cons : forall fuel c x rest,
  recv_loop (S fuel) (@mkVecDeque T c (x :: rest))
  = ([PopAttempt true], Some (Some x, mkVecDeque c rest)).
Proof. reflexivity. Qed.

(** A [recv] that returns on a healthy mutex took the front element. *)
Lemma recv_done_healthy : forall fuel s r s',
  poisoned s = false -> recv fuel s = Done (r, s') ->
  exists x rest, elems (queue s) = x :: rest /\ r = Ok x /\
    s' = mkShared false (mkVecDeque (buf_cap (queue s)) rest).
Proof.
  intros fuel [p q] r s' Hp H. simpl in Hp; subst p.
  unfold recv, recv_traced, lock in H; simpl in H.
  destruct (recv_loop fuel q) as [evs [[result q']|]] eqn:E; simpl in H;
    [|discriminate].
  destruct (recv_loop_exit _ _ _ _ _ E) as [x [-> [Hq Hc]]].
  injection H as <- <-.
  exists x, (elems q'). simpl. split; [exact Hq|split; [reflexivity|]].
  destruct q' as [c' l']. simpl in *. subst. reflexivity.
Qed.

(** A [recv] that returns an error found the mutex poisoned, and the error
    is the lock error. *)
Lemma recv_err_poisoned : forall fuel s e s',
  recv fuel s = Done (Err e, s') -> poisoned s = true /\ e = lock_error.
Proof.
  intros fuel [p q] e s' H.
  destruct p.
  - unfold recv, recv_traced, lock in H; simpl in H.
    injection H as <- _. split; reflexivity.
  - destruct (recv_done_healthy fuel (mkShared false q) (Err e) s' eq_refl H)
      as [x [rest [_ [Habs _]]]].
    discriminate.
Qed.

Lemma recv_cons : forall fuel c x rest,
  recv (S fuel) (mkShared false (@mkVecDeque T c (x :: rest)))
  = Done (Ok x, mkShared false (mkVecDeque c rest)).
Proof. reflexivity. Qed.

Lemma send_healthy : forall s v,
  poisoned s = false ->
  send s v = Done (Ok tt, mkShared false (push_back (queue s) v)).
Proof.
  intros [p q] v Hp. simpl in Hp; subst p. reflexivity.
Qed.

Lemma push_back_elems : forall q v, elems (push_back q v) = elems q ++ [v].
Proof. intros [c l] v. unfold push_back, grow. simpl. destruct (is_full _); reflexivity. Qed.

Lemma push_back_cap : forall q v, buf_cap q <= buf_cap (push_back q v).
Proof. intros [c l] v. unfold push_back, grow. simpl. destruct (is_full _); simpl; lia. Qed.

Lemma run_ops_sends : forall fuel vs s,
  poisoned s = false ->
  exists q', run_ops fuel (map OpSend vs) s = Done (mkShared false q') /\
    elems q' = elems (queue s) ++ vs.
Proof.
  induction vs as [|v vs IH]; intros s Hp; simpl.
  - exists (queue s). split; [|symmetry; apply app_nil_r].
    destruct s as [p q]; simpl in *; subst; reflexivity.
  - rewrite (send_healthy s v Hp).
    destruct (IH (mkShared false (push_back (queue s) v)) eq_refl) as [q' [H1 H2]].
    exists q'. split; [exact H1|]. rewrite H2. cbn [queue].
    rewrite push_back_elems, <- app_assoc. reflexivity.
Qed.

Lemma recv_n_front : forall fuel vs c rest,
  1 <= fuel ->
  recv_n fuel (length vs) (mkShared false (@mkVecDeque T c (vs ++ rest)))
  = Done (map Ok vs, mkShared false (mkVecDeque c rest)).
Proof.
  intros fuel vs c rest Hf. destruct fuel as [|fuel]; [lia|].
  induction vs as [|v vs IH]; [reflexivity|].
  change (length (v :: vs)) with (S (length vs)).
  change ((v :: vs) ++ rest) with (v :: (vs ++ rest)).
  cbn [recv_n]. rewrite recv_cons, IH. reflexivity.
Qed.

(** Sequential runs keep the mutex healthy and count the elements. *)
Lemma run_ops_len : forall fuel ops s s',
  poisoned s = false -> run_ops fuel ops s = Done s' ->
  poisoned s' = false /\
  vd_len (queue s') + count_recvs ops = vd_len (queue s) + count_sends ops /\
  buf_cap (queue s) <= buf_cap (queue s').
Proof.
  induction ops as [|o ops IH]; intros s s' Hp H; simpl in H.
  - injection H as <-. unfold count_recvs, count_sends. simpl. split; [exact Hp|lia].
  - destruct o as [v|].
    + rewrite (send_healthy s v Hp) in H.
      destruct (IH _ _ (eq_refl : poisoned (mkShared false _) = false) H) as [H1 [H2 H3]].
      pose proof (push_back_cap (queue s) v) as Hc.
      unfold vd_len in *; cbn [queue poisoned] in *. rewrite push_back_elems, length_app in H2.
      unfold count_recvs, count_sends in *. cbn [filter length] in *. simpl length in H2. split; [exact H1|lia].
    + destruct (recv fuel s) as [[r s1]| |] eqn:E; try discriminate.
      destruct (recv_done_healthy fuel s r s1 Hp E) as [x [rest [Hq [-> ->]]]].
      destruct (IH _ _ (eq_refl : poisoned (mkShared false _) = false) H) as [H1 [H2 H3]].
      unfold vd_len in *; simpl in *. rewrite Hq.
      unfold count_recvs, count_sends in *. cbn [filter length] in *. split; [exact H1|lia].
Qed.

End Lemmas.

Module MainProofs.
Import Main.

Definition zsum (l : list Z) : Z := fold_right Z.add 0%Z l.

Lemma zsum_app : forall l1 l2, zsum (l1 ++ l2) = (zsum l1 + zsum l2)%Z.
Proof. induction l1 as [|x l1 IH]; intros l2; simpl; [reflexivity|rewrite IH; lia]. Qed.

(** What [main]'s threads preserve: the mutex stays healthy, every value
    sent is either queued or received, and the values sent so far are
    [1 .. i-1]. *)
Definition inv (x : Sys) : Prop :=
  poisoned (sh x) = false /\
  (1 <= p_i x <= count)%Z /\
  c_left x <= 29 /\
  (Z.of_nat (length (elems (queue (sh x)))) + (29 - Z.of_nat (c_left x)) = p_i x - 1)%Z /\
  (2 * (sum x + zsum (elems (queue (sh x)))) = (p_i x - 1) * p_i x)%Z.

Lemma inv_init : inv init.
Proof. unfold inv, init, count. simpl. lia. Qed.

Lemma step_inv : forall t x x', inv x -> step t x = Some x' -> inv x'.
Proof.
  intros [|] [s i c sm sp] x' Hinv H; unfold inv in *; cbn [sh p_i c_left sum c_spinning] in *;
    destruct Hinv as [Hp [Hi [Hc [Hl Hs]]]].
  - unfold step in H. cbn [sh p_i c_left sum c_spinning] in H.
    destruct sp; [discriminate|].
    destruct (i <? count)%Z eqn:Ei; [|discriminate].
    apply Z.ltb_lt in Ei.
    rewrite (send_healthy _ s i Hp) in H. injection H as <-.
    cbn [sh p_i c_left sum queue poisoned].
    rewrite push_back_elems, length_app, zsum_app.
    change (zsum [i]) with (i + 0)%Z. change (length [i]) with 1. rewrite Nat2Z.inj_add.
    unfold count in *. split; [reflexivity|]. nia.
  - unfold step in H. cbn [sh p_i c_left sum c_spinning] in H.
    destruct sp; [injection H as <-; exact (conj Hp (conj Hi (conj Hc (conj Hl Hs))))|].
    destruct c as [|rest]; [discriminate|].
    destruct (recv 1 s) as [[r s1]| |] eqn:E; try discriminate.
    + destruct (recv_done_healthy _ 1 s r s1 Hp E) as [v [l [Hq [-> ->]]]].
      unfold checked_add_i32 in H.
      destruct (_ && _)%bool; [|discriminate].
      injection H as <-. cbn [sh p_i c_left sum queue poisoned elems].
      rewrite Hq in Hl, Hs. change (zsum (v :: l)) with (v + zsum l)%Z in Hs.
      change (length (v :: l)) with (S (length l)) in Hl.
      rewrite !Nat2Z.inj_succ in Hl. split; [reflexivity|]. lia.
    + injection H as <-. exact (conj Hp (conj Hi (conj Hc (conj Hl Hs)))).
Qed.

Lemma exec_inv : forall sched x x', inv x -> exec sched x = Some x' -> inv x'.
Proof.
  induction sched as [|t sched IH]; intros x x' Hx H; simpl in H.
  - injection H as <-. exact Hx.
  - destruct (step t x) as [y|] eqn:E; [|discriminate].
    exact (IH y x' (step_inv t x y Hx E) H).
Qed.

End MainProofs.

(** ** The properties *)

(** Whether a type can carry an arbitrary diagnostic text: some reading
    of its values yields every string. *)
Definition carries_message (A : Type) : Prop :=
  exists f : A -> string, forall m, exists a, f a = m.

(** Whether, in a trace of [recv], every failed pop attempt is followed by
    a [Release] before the next pop attempt. *)
Fixpoint releases_between_retries (evs : list event) : bool :=
  match evs with
  | [] => true
  | PopAttempt false :: rest =>
      let fix until_release (l : list event) : bool :=
        match l with
        | [] => true
        | Release :: _ => true
        | PopAttempt _ :: _ => false
        | Acquire :: l' => until_release l'
        end in
      until_release rest && releases_between_retries rest
  | _ :: rest => releases_between_retries rest
  end.

(** C1 (the code panics): on a poisoned mutex, [Producer::send],
    [Producer::capacity], [Producer::size], [Consumer::capacity] and
    [Consumer::size] all panic instead of returning their error value. *)
Theorem lock_failure_panics : forall (T : Type) (q : VecDeque T) (v : T),
  let s := mkShared true q in
  send s v = Panicked "Producer::send() could not lock mutex."%string /\
  producer_capacity s = Panicked "Producer::send() could not lock mutex."%string /\
  producer_size s = Panicked "Producer::send() could not lock mutex."%string /\
  consumer_capacity s = Panicked "Producer::send() could not lock mutex."%string /\
  consumer_size s = Panicked "Producer::send() could not lock mutex."%string.
Proof. intros T q v s. repeat split. Qed.

(** C2 (the code spins holding the lock): on an empty queue and a healthy
    mutex, [Consumer::recv] acquires the lock once and then retries
    [pop_front] for ever without releasing it. *)
Theorem recv_empty_holds_lock : forall (T : Type) (c fuel : nat),
  recv_traced fuel (mkShared false (@mkVecDeque T c []))
  = (Acquire :: repeat (PopAttempt false) fuel, OutOfFuel).
Proof.
  intros T c fuel. unfold recv_traced, lock. simpl.
  rewrite recv_loop_empty. reflexivity.
Qed.

(** C3: on a healthy mutex and a non-empty queue, [Consumer::recv] returns
    [Ok] with the front element (and removes it); it returns [Err] only
    when the mutex is poisoned, never because the queue is empty. *)
Theorem recv_ok_or_lock_error : forall (T : Type) (fuel : nat) (s : Shared T),
  (forall x rest, poisoned s = false -> elems (queue s) = x :: rest -> 1 <= fuel ->
     recv fuel s = Done (Ok x, mkShared false (mkVecDeque (buf_cap (queue s)) rest))) /\
  (forall e s', recv fuel s = Done (Err e, s') -> poisoned s = true).
Proof.
  intros T fuel [p [c l]]. split.
  - intros x rest Hp Hl Hf. simpl in Hp, Hl. subst p l.
    destruct fuel as [|fuel]; [lia|]. apply recv_cons.
  - intros e s' H. exact (proj1 (recv_err_poisoned T fuel _ e s' H)).
Qed.

Lemma recv_ok_or_lock_error_witness :
  (poisoned (mkShared false (@mkVecDeque nat 4 [7; 8])) = false /\
   elems (queue (mkShared false (@mkVecDeque nat 4 [7; 8]))) = 7 :: [8] /\ 1 <= 1) /\
  recv 1 (mkShared false (@mkVecDeque nat 4 [7; 8]))
  = Done (Ok 7, mkShared false (mkVecDeque 4 [8])).
Proof.
  split; [repeat split; auto|].
  exact (proj1 (recv_ok_or_lock_error nat 1 (mkShared false (mkVecDeque 4 [7; 8])))
           7 [8] eq_refl eq_refl (le_n 1)).
Defined.

(** C4: after sending [v1 .. vn] on a fresh channel, [n] calls of
    [Consumer::recv] return [v1 .. vn] in that order. *)
Theorem fifo_order : forall (T : Type) (capacity fuel : nat) (vs : list T),
  1 <= fuel ->
  exists s1 s2,
    run_ops fuel (map OpSend vs) (channel capacity) = Done s1 /\
    recv_n fuel (length vs) s1 = Done (map Ok vs, s2).
Proof.
  intros T capacity fuel vs Hf.
  destruct (run_ops_sends T fuel vs (channel capacity) eq_refl) as [[c l] [H1 H2]].
  simpl in H2. subst l.
  exists (mkShared false (mkVecDeque c vs)), (mkShared false (@mkVecDeque T c [])).
  split; [exact H1|].
  rewrite <- (app_nil_r vs) at 2. apply recv_n_front. exact Hf.
Qed.

Lemma fifo_order_witness :
  1 <= 1 /\
  exists s1 s2,
    run_ops 1 (map OpSend [3; 1; 2]) (@channel nat 2) = Done s1 /\
    recv_n 1 (length [3; 1; 2]) s1 = Done (map Ok [3; 1; 2], s2).
Proof. split; [lia|]. apply (fifo_order nat 2 1 [3; 1; 2]). lia. Defined.

(** C5: after a sequential run of [k] sends and [j] receives on a fresh
    channel that returns, [j <= k] and both [Producer::size] and
    [Consumer::size] return [k - j]. *)
Theorem size_after_ops : forall (T : Type) (capacity fuel : nat) (ops : list (op T)) (s' : Shared T),
  run_ops fuel ops (channel capacity) = Done s' ->
  count_recvs ops <= count_sends ops /\
  producer_size s' = Done (Ok (count_sends ops - count_recvs ops), s') /\
  consumer_size s' = Done (Ok (count_sends ops - count_recvs ops), s').
Proof.
  intros T capacity fuel ops s' H.
  destruct (run_ops_len T fuel ops (channel capacity) s' eq_refl H) as [Hp [Hl _]].
  unfold vd_len in Hl. simpl in Hl.
  destruct s' as [p q]. simpl in Hp. subst p.
  unfold producer_size, consumer_size, lock, vd_len in *. simpl in *.
  repeat split; [lia| |]; do 3 f_equal; lia.
Qed.

Lemma size_after_ops_witness :
  run_ops 1 [OpSend 5; OpSend 6; OpRecv; OpSend 7] (@channel nat 1)
    = Done (mkShared false (mkVecDeque 4 [6; 7])) /\
  consumer_size (mkShared false (@mkVecDeque nat 4 [6; 7]))
    = Done (Ok (3 - 1), mkShared false (mkVecDeque 4 [6; 7])).
Proof.
  split; [vm_compute; reflexivity|].
  exact (proj2 (proj2 (size_after_ops nat 1 1 [OpSend 5; OpSend 6; OpRecv; OpSend 7] _
                         ltac:(vm_compute; reflexivity)))).
Defined.

(** C6 (as written it fails): a [SendError<T>] holds only the value, so for
    [T = ()] it cannot carry any diagnostic text. *)
Lemma send_error_has_no_message :
  ~ (carries_message Error /\ carries_message (SendError unit) /\ carries_message RecvError).
Proof.
  intros [_ [[f Hf] _]].
  destruct (Hf ""%string) as [[[]] H1].
  destruct (Hf "x"%string) as [[[]] H2].
  rewrite H1 in H2. discriminate.
Qed.

(** C6 (amended): [Error] and [RecvError] carry a diagnostic text; a
    [SendError<T>] carries exactly the rejected value and nothing else. *)
Theorem error_types_contents :
  carries_message Error /\ carries_message RecvError /\
  (forall (T : Type) (v : T), SendError_0 (mkSendError v) = v) /\
  (forall (T : Type) (e1 e2 : SendError T), SendError_0 e1 = SendError_0 e2 -> e1 = e2).
Proof.
  split; [exists Error_message; intros m; exists (mkError m); reflexivity|].
  split; [exists RecvError_message; intros m; exists (mkRecvError m); reflexivity|].
  split; [reflexivity|].
  intros T [v1] [v2] H. simpl in H. subst. reflexivity.
Qed.

(** C7: on a healthy mutex, [Producer::send] returns [Ok] and appends the
    value at the back, whatever the queue's length and capacity. *)
Theorem send_never_full : forall (T : Type) (s : Shared T) (v : T),
  poisoned s = false ->
  exists s', send s v = Done (Ok tt, s') /\ poisoned s' = false /\
    elems (queue s') = elems (queue s) ++ [v].
Proof.
  intros T s v Hp. exists (mkShared false (push_back (queue s) v)).
  split; [apply send_healthy; exact Hp|]. split; [reflexivity|].
  apply push_back_elems.
Qed.

(** A queue whose length equals its capacity: [with_capacity(0)] has
    capacity 1, and holds one element. *)
Lemma send_never_full_witness :
  vd_capacity (@mkVecDeque nat 2 [1]) = vd_len (@mkVecDeque nat 2 [1]) /\
  (poisoned (mkShared false (@mkVecDeque nat 2 [1])) = false /\
   exists s', send (mkShared false (@mkVecDeque nat 2 [1])) 9 = Done (Ok tt, s') /\
     poisoned s' = false /\ elems (queue s') = [1] ++ [9]).
Proof.
  split; [reflexivity|]. split; [reflexivity|].
  exact (send_never_full nat (mkShared false (mkVecDeque 2 [1])) 9 eq_refl).
Defined.

(** C8: over any sequential run of sends and receives from a healthy
    store, the capacity reported before is at most the capacity reported
    after, on both handles. *)
Theorem capacity_monotone : forall (T : Type) (fuel : nat) (ops : list (op T)) (s s' : Shared T),
  poisoned s = false ->
  run_ops fuel ops s = Done s' ->
  exists c1 c2,
    producer_capacity s = Done (Ok c1, s) /\ consumer_capacity s = Done (Ok c1, s) /\
    producer_capacity s' = Done (Ok c2, s') /\ consumer_capacity s' = Done (Ok c2, s') /\
    c1 <= c2.
Proof.
  intros T fuel ops s s' Hp H.
  destruct (run_ops_len T fuel ops s s' Hp H) as [Hp' [_ Hc]].
  exists (vd_capacity (queue s)), (vd_capacity (queue s')).
  destruct s as [p q], s' as [p' q']. simpl in *. subst p p'.
  unfold producer_capacity, consumer_capacity, lock, vd_capacity. simpl.
  repeat split. lia.
Qed.

Lemma capacity_monotone_witness :
  poisoned (@channel nat 0) = false /\
  run_ops 1 [OpSend 1; OpSend 2; OpRecv; OpSend 3] (@channel nat 0)
    = Done (mkShared false (mkVecDeque 4 [2; 3])) /\
  exists c1 c2,
    producer_capacity (@channel nat 0) = Done (Ok c1, channel 0) /\
    consumer_capacity (@channel nat 0) = Done (Ok c1, channel 0) /\
    producer_capacity (mkShared false (@mkVecDeque nat 4 [2; 3]))
      = Done (Ok c2, mkShared false (mkVecDeque 4 [2; 3])) /\
    consumer_capacity (mkShared false (@mkVecDeque nat 4 [2; 3]))
      = Done (Ok c2, mkShared false (mkVecDeque 4 [2; 3])) /\
    c1 <= c2.
Proof.
  split; [reflexivity|]. split; [vm_compute; reflexivity|].
  apply (capacity_monotone nat 1 [OpSend 1; OpSend 2; OpRecv; OpSend 3]); vm_compute; reflexivity.
Defined.

(** C9: in [main], every interleaving of the two threads that runs both of
    them to completion ends with the consumer's sum equal to 435. *)
Theorem main_sum_435 : forall (sched : list Main.thread) (x : Main.Sys),
  Main.exec sched Main.init = Some x ->
  Main.finished x = true ->
  Main.sum x = 435%Z.
Proof.
  intros sched x H Hf.
  destruct (MainProofs.exec_inv sched Main.init x MainProofs.inv_init H)
    as [_ [Hi [Hc [Hl Hs]]]].
  unfold Main.finished in Hf.
  apply andb_true_iff in Hf as [Hf _]. apply andb_true_iff in Hf as [Hp Hc0].
  apply Z.eqb_eq in Hp. apply Nat.eqb_eq in Hc0.
  rewrite Hp, Hc0 in *. unfold Main.count in *.
  destruct (elems (queue (Main.sh x))) as [|y l].
  - change (MainProofs.zsum []) with 0%Z in Hs. lia.
  - change (length (y :: l)) with (S (length l)) in Hl.
    rewrite Nat2Z.inj_succ in Hl. lia.
Qed.

Lemma main_sum_435_witness :
  exists x,
    Main.exec (repeat Main.Producer 29 ++ repeat Main.Consumer 29) Main.init = Some x /\
    Main.finished x = true /\ Main.sum x = 435%Z.
Proof.
  destruct (Main.exec (repeat Main.Producer 29 ++ repeat Main.Consumer 29) Main.init)
    as [x|] eqn:E; [|vm_compute in E; discriminate].
  exists x. split; [reflexivity|].
  assert (Hf : Main.finished x = true).
  { vm_compute in E. injection E as <-. reflexivity. }
  split; [exact Hf|]. exact (main_sum_435 _ x E Hf).
Defined.

(** C10: the ["pop_front() returned None"] error of [Consumer::recv] is
    never returned: any [Err] it returns is the lock error, on a poisoned
    mutex. *)
Theorem recv_never_empty_error : forall (T : Type) (fuel : nat) (s s' : Shared T) (e : RecvError),
  recv fuel s = Done (Err e, s') ->
  e <> empty_error /\ e = lock_error /\ poisoned s = true.
Proof.
  intros T fuel s s' e H.
  destruct (recv_err_poisoned T fuel s e s' H) as [Hp ->].
  split; [discriminate|]. split; [reflexivity|exact Hp].
Qed.

Lemma recv_never_empty_error_witness :
  recv 3 (mkShared true (@with_capacity nat 4)) = Done (Err lock_error, mkShared true (with_capacity 4)) /\
  lock_error <> empty_error /\ lock_error = lock_error /\ poisoned (mkShared true (@with_capacity nat 4)) = true.
Proof.
  assert (H : recv 3 (mkShared true (@with_capacity nat 4))
              = Done (Err lock_error, mkShared true (with_capacity 4))) by reflexivity.
  split; [exact H|].
  exact (recv_never_empty_error nat 3 _ _ lock_error H).
Defined.

(** C2 as stated: the trace of a [recv] on an empty queue breaks the rule
    that a failed pop releases the lock before the next attempt. *)
Lemma recv_retries_without_release :
  releases_between_retries (fst (recv_traced 2 (mkShared false (@with_capacity nat 64)))) = false.
Proof. reflexivity. Qed.

(** In [main], a consumer that locks first keeps the lock while spinning:
    the producer can then never send. *)
Lemma main_consumer_first_blocks_producer :
  Main.exec [Main.Consumer; Main.Producer] Main.init = None.
Proof. vm_compute. reflexivity. Qed.

(** ** Further properties of the channel operations *)

Section MoreChannel.
Variable T : Type.

Lemma next_power_of_two_ge : forall n, n <= next_power_of_two n.
Proof.
  intros n. unfold next_power_of_two.
  destruct (n <=? 1) eqn:E; [apply Nat.leb_le in E; lia|].
  apply Nat.leb_gt in E.
  destruct (Nat.log2_spec (n - 1)) as [_ H]; [lia|]. lia.
Qed.

Lemma next_power_of_two_pos : forall n, 1 <= next_power_of_two n.
Proof.
  intros n. unfold next_power_of_two.
  destruct (n <=? 1); [lia|]. pose proof (Nat.pow_nonzero 2 (S (Nat.log2 (n - 1)))). lia.
Qed.

(** A fresh channel ([channel], [Producer::new], [Consumer::new]) is
    empty and reports a capacity of at least the requested one. *)
Theorem channel_fresh : forall (capacity : nat),
  exists k,
    producer_capacity (@channel T capacity) = Done (Ok k, channel capacity) /\
    capacity <= k /\
    producer_size (@channel T capacity) = Done (Ok 0, channel capacity).
Proof.
  intros capacity. exists (vd_capacity (@with_capacity T capacity)).
  split; [reflexivity|]. split; [|reflexivity].
  unfold vd_capacity, with_capacity. cbn [buf_cap].
  pose proof (next_power_of_two_ge (Nat.max (capacity + 1) (MINIMUM_CAPACITY + 1))). lia.
Qed.



(** The ring buffer's invariant: at least two slots, one of them free. *)
Definition vd_wf (q : VecDeque T) : Prop := 2 <= buf_cap q /\ vd_len q <= vd_capacity q.

Lemma push_back_wf : forall q v, vd_wf q -> vd_wf (push_back q v).
Proof.
  intros [b l] v [Hb Hl]. unfold vd_wf, vd_len, vd_capacity, push_back, is_full, grow in *.
  cbn in *. rewrite length_app. cbn.
  destruct (b - length l =? 1) eqn:E; cbn.
  - apply Nat.eqb_eq in E. lia.
  - apply Nat.eqb_neq in E. lia.
Qed.

Lemma run_ops_wf : forall fuel ops (s s' : Shared T),
  poisoned s = false -> vd_wf (queue s) -> run_ops fuel ops s = Done s' ->
  vd_wf (queue s').
Proof.
  induction ops as [|o ops IH]; intros s s' Hp Hw H; simpl in H.
  - injection H as <-. exact Hw.
  - destruct o as [v|].
    + rewrite (send_healthy T s v Hp) in H.
      exact (IH (mkShared false _) _ eq_refl (push_back_wf _ v Hw) H).
    + destruct (recv fuel s) as [[r s1]| |] eqn:E; try discriminate.
      destruct (recv_done_healthy T fuel s r s1 Hp E) as [x [rest [Hq [-> ->]]]].
      apply (IH (mkShared false (mkVecDeque (buf_cap (queue s)) rest)) _ eq_refl); [|exact H].
      destruct Hw as [Hb Hl]. unfold vd_wf, vd_len, vd_capacity in *.
      cbn in *. rewrite Hq in Hl. cbn in Hl. lia.
Qed.

(** Along any sequential run from a fresh channel, the size reported never
    exceeds the capacity reported. *)
Theorem size_le_capacity : forall (capacity fuel : nat) (ops : list (op T)) (s' : Shared T),
  run_ops fuel ops (channel capacity) = Done s' ->
  exists n k,
    producer_size s' = Done (Ok n, s') /\ producer_capacity s' = Done (Ok k, s') /\ n <= k.
Proof.
  intros capacity fuel ops s' H.
  assert (Hw : vd_wf (queue s')).
  { apply (run_ops_wf fuel ops (channel capacity)); [reflexivity| |exact H].
    unfold vd_wf, vd_len, vd_capacity, channel, with_capacity. cbn.
    pose proof (next_power_of_two_ge (Nat.max (capacity + 1) (MINIMUM_CAPACITY + 1))).
    unfold MINIMUM_CAPACITY in *. change (1 + 1) with 2 in H0. lia. }
  destruct (run_ops_len T fuel ops (channel capacity) s' eq_refl H) as [Hp _].
  exists (vd_len (queue s')), (vd_capacity (queue s')).
  destruct s' as [p q]. simpl in Hp. subst p.
  split; [reflexivity|]. split; [reflexivity|]. apply Hw.
Qed.




End MoreChannel.

(** ** Further properties of [main] *)

Module MainMore.
Import Main MainProofs.

(** [start, start + 1, ..., start + n - 1]. *)
Fixpoint zseq (start : Z) (n : nat) : list Z :=
  match n with
  | 0 => []
  | S n' => start :: zseq (start + 1) n'
  end.

Lemma zseq_S : forall start n, zseq start (S n) = start :: zseq (start + 1) n.
Proof. reflexivity. Qed.

Lemma zseq_snoc : forall n start,
  zseq start (S n) = zseq start n ++ [(start + Z.of_nat n)%Z].
Proof.
  induction n as [|n IH]; intros start.
  - simpl. rewrite Z.add_0_r. reflexivity.
  - change (zseq start (S (S n))) with (start :: zseq (start + 1) (S n)).
    rewrite IH. simpl. f_equal. f_equal. f_equal. lia.
Qed.

(** The queue holds the next values due to the consumer, in order, and the
    consumer has summed [1 .. 29 - c_left]. *)
Definition inv2 (x : Sys) : Prop :=
  elems (queue (sh x)) = zseq (30 - Z.of_nat (c_left x)) (length (elems (queue (sh x)))) /\
  (2 * sum x = (29 - Z.of_nat (c_left x)) * (30 - Z.of_nat (c_left x)))%Z.

Definition reachable (x : Sys) : Prop := exists sched, exec sched init = Some x.

Lemma step_inv2 : forall t x x', inv x -> inv2 x -> step t x = Some x' -> inv2 x'.
Proof.
  intros [|] [s i c sm sp] x' Hinv [He Hs] H; unfold inv, inv2 in *;
    cbn [sh p_i c_left sum c_spinning] in *;
    destruct Hinv as [Hp [Hi [Hc [Hl _]]]].
  - unfold step in H. cbn [sh p_i c_left sum c_spinning] in H.
    destruct sp; [discriminate|].
    destruct (i <? count)%Z; [|discriminate].
    rewrite (send_healthy _ s i Hp) in H. injection H as <-.
    cbn [sh p_i c_left sum queue poisoned].
    rewrite push_back_elems, length_app. split; [|exact Hs].
    change (length [i]) with 1. rewrite Nat.add_1_r, zseq_snoc, <- He.
    f_equal. f_equal. lia.
  - unfold step in H. cbn [sh p_i c_left sum c_spinning] in H.
    destruct sp; [injection H as <-; exact (conj He Hs)|].
    destruct c as [|rest]; [discriminate|].
    destruct (recv 1 s) as [[r s1]| |] eqn:E; try discriminate.
    + destruct (recv_done_healthy _ 1 s r s1 Hp E) as [v [l [Hq [-> ->]]]].
      unfold checked_add_i32 in H.
      destruct (_ && _)%bool; [|discriminate].
      injection H as <-. cbn [sh p_i c_left sum queue poisoned elems].
      rewrite Hq in He. change (length (v :: l)) with (S (length l)) in He.
      rewrite zseq_S in He.
      pose proof (f_equal (@hd Z 0%Z) He) as Hv. pose proof (f_equal (@tl Z) He) as Hrest.
      cbn [hd tl] in Hv, Hrest. clear He.
      rewrite Nat2Z.inj_succ in *. split.
      * rewrite Hrest at 1. f_equal. lia.
      * subst v. nia.
    + injection H as <-. exact (conj He Hs).
Qed.

Lemma reachable_inv : forall x, reachable x -> inv x /\ inv2 x.
Proof.
  intros x [sched H].
  assert (G : forall sched y y', inv y -> inv2 y -> exec sched y = Some y' -> inv y' /\ inv2 y').
  { induction sched0 as [|t sched0 IH]; intros y y' H1 H2 Hy; simpl in Hy.
    - injection Hy as <-. split; assumption.
    - destruct (step t y) as [z|] eqn:E; [|discriminate].
      exact (IH z y' (step_inv t y z H1 E) (step_inv2 t y z H1 H2 E) Hy). }
  apply (G sched init x inv_init); [|exact H].
  unfold inv2, init. cbn. split; reflexivity.
Qed.

(** In every interleaving, the value the consumer receives on its [k]-th
    loop iteration ([c_left = 30 - k]) is [k]: the values arrive as
    [1, 2, ..., 29]. *)
Theorem main_kth_value_is_k : forall (x : Sys) (v : Z) (s' : Shared Z),
  reachable x -> c_spinning x = false ->
  recv 1 (sh x) = Done (Ok v, s') ->
  v = (30 - Z.of_nat (c_left x))%Z.
Proof.
  intros x v s' Hr Hsp H.
  destruct (reachable_inv x Hr) as [[Hp _] [He _]].
  destruct (recv_done_healthy _ 1 (sh x) (Ok v) s' Hp H) as [w [l [Hq [Hw _]]]].
  injection Hw as ->. rewrite Hq in He. change (length (w :: l)) with (S (length l)) in He.
  rewrite zseq_S in He. injection He as Hv _. exact Hv.
Qed.


Lemma spinning_stays : forall sched x y,
  c_spinning x = true -> exec sched x = Some y -> c_spinning y = true.
Proof.
  induction sched as [|t sched IH]; intros x y Hs H; simpl in H.
  - injection H as <-. exact Hs.
  - destruct t; unfold step in H; rewrite Hs in H; [discriminate|].
    exact (IH x y Hs H).
Qed.

(** If the consumer thread takes the lock before the producer has sent
    anything, [main] never finishes: the consumer spins holding the lock
    and no schedule can complete both threads. *)
Theorem main_consumer_first_never_finishes : forall sched y,
  exec (Consumer :: sched) init = Some y -> finished y = false.
Proof.
  intros sched y H. simpl in H.
  assert (Hs : c_spinning (mkSys (channel 64) 1 (Z.to_nat (count - 1)) 0 true) = true)
    by reflexivity.
  pose proof (spinning_stays sched _ y Hs H) as Hy.
  unfold finished. rewrite Hy. rewrite !andb_false_r. reflexivity.
Qed.

End MainMore.

(** ** Witnesses *)



Lemma size_le_capacity_witness :
  run_ops 1 [OpSend 1; OpSend 2; OpSend 3; OpRecv] (@channel nat 0)
    = Done (mkShared false (mkVecDeque 4 [2; 3])) /\
  exists n k,
    producer_size (mkShared false (@mkVecDeque nat 4 [2; 3]))
      = Done (Ok n, mkShared false (mkVecDeque 4 [2; 3])) /\
    producer_capacity (mkShared false (@mkVecDeque nat 4 [2; 3]))
      = Done (Ok k, mkShared false (mkVecDeque 4 [2; 3])) /\ n <= k.
Proof.
  assert (H : run_ops 1 [OpSend 1; OpSend 2; OpSend 3; OpRecv] (@channel nat 0)
              = Done (mkShared false (mkVecDeque 4 [2; 3]))) by (vm_compute; reflexivity).
  split; [exact H|]. exact (size_le_capacity nat 0 1 _ _ H).
Defined.


Lemma main_kth_value_is_k_witness :
  exists x v s',
    MainMore.reachable x /\ Main.c_spinning x = false /\
    recv 1 (Main.sh x) = Done (Ok v, s') /\ v = 2%Z /\
    v = (30 - Z.of_nat (Main.c_left x))%Z.
Proof.
  destruct (Main.exec [Main.Producer; Main.Producer; Main.Consumer; Main.Producer] Main.init)
    as [x|] eqn:E; [|vm_compute in E; discriminate].
  assert (Hr : MainMore.reachable x) by (eexists; exact E).
  assert (Hx : x = Main.mkSys (mkShared false (mkVecDeque 128 [2; 3]%Z)) 4 28 1 false)
    by (vm_compute in E; injection E as <-; reflexivity).
  assert (Hsp : Main.c_spinning x = false) by (rewrite Hx; reflexivity).
  assert (Hrecv : recv 1 (Main.sh x) = Done (Ok 2%Z, mkShared false (mkVecDeque 128 [3%Z])))
    by (rewrite Hx; reflexivity).
  exists x, 2%Z, (mkShared false (mkVecDeque 128 [3%Z])).
  split; [exact Hr|]. split; [exact Hsp|]. split; [exact Hrecv|]. split; [reflexivity|].
  exact (MainMore.main_kth_value_is_k x 2%Z _ Hr Hsp Hrecv).
Defined.


Lemma main_consumer_first_never_finishes_witness :
  exists y, Main.exec [Main.Consumer; Main.Consumer] Main.init = Some y /\
    Main.finished y = false.
Proof.
  destruct (Main.exec [Main.Consumer; Main.Consumer] Main.init) as [y|] eqn:E;
    [|vm_compute in E; discriminate].
  exists y. split; [reflexivity|].
  exact (MainMore.main_consumer_first_never_finishes [Main.Consumer] y E).
Defined.
